(** * LeviathanMapper: the fetch-and-aggregate engine of [LeviathanMapper.go]

    A shallow embedding of [src/LeviathanMapper.go].  The process globals
    ([uniqueSubs], [httpClient], the wait group, standard output, the
    requests sent) are a record threaded through the code; the outside world
    (the network, [url.Parse], the TCP probe, the iteration order of a Go
    map) is a record of oracles; each adapter goroutine is a computation in a
    small monad that logs the effects it performs, and [main] runs the four
    logs under an arbitrary schedule. *)

From Stdlib Require Import Ascii.
From stdpp Require Import gmap strings list sorting.

Set Warnings "-register-all,-clear-no-such-hyp".
Open Scope string_scope.
Open Scope list_scope.
Open Scope Z_scope.

(** ** Constants (lines 15-20) *)

Definition second : Z := 1000000000.
Definition defaultTimeout : Z := 5 * second.
Definition defaultConcurrency : Z := 20.
Definition retryLimit : nat := 3.
Definition retryDelay : Z := 2 * second.

(** ** Decoded JSON

    What [encoding/json] produces when it decodes into [interface{}]:
    [nil], [bool], [float64], [string], [[]interface{}] and
    [map[string]interface{}].  An object keeps its members in document
    order; decoding into a Go map keeps the last member of a repeated key
    ([map_get]).  A number is carried as the text [%v] prints for it, which
    is all this program can observe of a number. *)

Inductive json : Type :=
  | JNull
  | JBool (b : bool)
  | JNum (repr : string)
  | JStr (s : string)
  | JArr (elems : list json)
  | JObj (fields : list (string * json)).

(** [m[k]] on the map decoded from the members [fields]. *)
Fixpoint map_get (k : string) (fields : list (string * json)) : option json :=
  match fields with
  | [] => None
  | (k', v) :: rest =>
      match map_get k rest with
      | Some v' => Some v'
      | None => if decide (k = k') then Some v else None
      end
  end.

(** [Decode(&results)] with [results : []map[string]interface{}]: [null]
    leaves the slice nil, an array element must be an object or [null] (a
    nil map); anything else, and a body that holds no JSON value ([None]),
    is an error. *)
Definition decode_record (v : json) : option (list (string * json)) :=
  match v with
  | JObj fields => Some fields
  | JNull => Some []
  | _ => None
  end.

Definition decode_records (body : option json)
  : option (list (list (string * json))) :=
  match body with
  | Some JNull => Some []
  | Some (JArr elems) => mapM decode_record elems
  | _ => None
  end.

(** [Decode(&result)] with [result : map[string]interface{}]. *)
Definition decode_object (body : option json) : option (list (string * json)) :=
  match body with
  | Some v => decode_record v
  | None => None
  end.

(** ** [fmt]: the verb [%s]

    A string operand is copied.  Every other operand is a bad operand for
    [%s]: [%!s(<nil>)], [%!s(bool=true)], [%!s(float64=1)]; slices and maps
    print their elements with the same verb, a map with its keys sorted. *)

Definition key_le (a b : string * string) : Prop := String.leb a.1 b.1 = true.

#[local] Instance key_le_dec a b : Decision (key_le a b).
Proof. unfold key_le. apply _. Defined.

(** The members a Go map holds: the last one of every key. *)
Fixpoint map_members {A} (fields : list (string * A)) : list (string * A) :=
  match fields with
  | [] => []
  | (k, v) :: rest =>
      if decide (k ∈ rest.*1) then map_members rest
      else (k, v) :: map_members rest
  end.

Fixpoint fmt_s (depth : nat) (v : json) : string :=
  match v with
  | JStr s => s
  | JNull => match depth with O => "%!s(<nil>)" | _ => "<nil>" end
  | JBool b => "%!s(bool=" +:+ (if b then "true" else "false") +:+ ")"
  | JNum repr => "%!s(float64=" +:+ repr +:+ ")"
  | JArr elems => "[" +:+ String.concat " " (map (fmt_s (S depth)) elems) +:+ "]"
  | JObj fields =>
      let printed := map (λ kv, (kv.1, fmt_s (S depth) kv.2)) fields in
      "map[" +:+
      String.concat " "
        (map (λ kv, kv.1 +:+ ":" +:+ kv.2)
             (merge_sort key_le (map_members printed))) +:+ "]"
  end.

(** [fmt.Sprintf("%s.%s", sub, domain)] (lines 131 and 159). *)
Definition Sprintf_s_dot_s (sub : json) (domain : string) : string :=
  fmt_s 0 sub +:+ "." +:+ domain.

(** ** The network and the rest of the outside world *)

Record Request : Type := {
  Method : string;
  URL : string;
  Header : list (string * string)
}.

Record Response : Type := {
  StatusCode : Z;
  (** the first JSON value of the body; [None] when the decoder finds none *)
  Body : option json
}.

(** The pair [(resp, err)] of [httpClient.Do]: a non-nil error, or a
    response with a nil error. *)
Inductive DoResult : Type :=
  | DoErr (err : string)
  | DoOk (resp : Response).

Record World : Type := {
  (** [url.Parse]: the error, or the [Host] of the parsed URL *)
  url_parse : string → string + string;
  (** [net.DialTimeout("tcp", host, defaultTimeout)]: the error, if any *)
  dial_tcp : string → option string;
  (** [httpClient.Do(req)], by request and by how many [Do] the calling
      goroutine has made before *)
  http_do : Request → nat → DoResult;
  (** the order in which [range] visits a map's keys *)
  map_range : gset string → list string;
  map_range_perm : ∀ s, map_range s ≡ₚ elements s
}.

(** Flags and environment (lines 23-27 and 228-231). *)
Record Config : Type := {
  domain : string;
  concurrencyFlag : Z;
  proxyFlag : string;
  apiKeySecurityTrails : string;
  apiKeyShodan : string;
  apiKeyVirusTotal : string
}.

(** ** Process state (lines 29-38) *)

Record Client : Type := {
  Timeout : Z;
  Proxy : option string
}.

Record Proc : Type := {
  uniqueSubs : gset string;
  httpClient : option Client;
  wg : Z;
  (** lines printed, oldest first *)
  stdout : list string;
  (** requests handed to [httpClient.Do], oldest first *)
  requests : list Request;
  (** hosts probed by [net.DialTimeout], oldest first *)
  probes : list string
}.

Definition initial : Proc :=
  {| uniqueSubs := ∅; httpClient := None; wg := 0; stdout := [];
     requests := []; probes := [] |}.

Definition Println (line : string) (st : Proc) : Proc :=
  {| uniqueSubs := uniqueSubs st; httpClient := httpClient st; wg := wg st;
     stdout := stdout st ++ [line];
     requests := requests st; probes := probes st |}.

Definition insert_sub (subdomain : string) (st : Proc) : Proc :=
  {| uniqueSubs := {[subdomain]} ∪ uniqueSubs st;
     httpClient := httpClient st; wg := wg st; stdout := stdout st;
     requests := requests st; probes := probes st |}.

Definition wg_add (n : Z) (st : Proc) : Proc :=
  {| uniqueSubs := uniqueSubs st; httpClient := httpClient st;
     wg := wg st + n; stdout := stdout st;
     requests := requests st; probes := probes st |}.

Definition sent (req : Request) (st : Proc) : Proc :=
  {| uniqueSubs := uniqueSubs st; httpClient := httpClient st; wg := wg st;
     stdout := stdout st;
     requests := requests st ++ [req]; probes := probes st |}.

Definition probed (host : string) (st : Proc) : Proc :=
  {| uniqueSubs := uniqueSubs st; httpClient := httpClient st; wg := wg st;
     stdout := stdout st;
     requests := requests st; probes := probes st ++ [host] |}.

Definition set_client (c : Client) (st : Proc) : Proc :=
  {| uniqueSubs := uniqueSubs st; httpClient := Some c; wg := wg st;
     stdout := stdout st;
     requests := requests st; probes := probes st |}.

(** ** The Aggregator (lines 196-216) *)

Definition containsWildcard (subdomain : string) : bool :=
  bool_decide (0 < String.length subdomain)%nat
  && bool_decide (String.get 0 subdomain = Some "*"%char).

(** The body of [addSubdomain]; it runs with [mu] held, so it is one atomic
    step of the process. *)
Definition addSubdomain (subdomain : string) (st : Proc) : Proc :=
  if containsWildcard subdomain then
    Println ("Ignoring subdomain with wildcard: " +:+ subdomain) st
  else if decide (subdomain ∈ uniqueSubs st) then st
  else Println ("Subdomain found: " +:+ subdomain) (insert_sub subdomain st).

(** ** [printAllSubdomains] (lines 219-225) *)

Definition newline : string := String "010"%char "".

Definition printAllSubdomains (w : World) (st : Proc) : Proc :=
  Println "=============================="
    (foldl (λ s subdomain, Println subdomain s)
       (Println (newline +:+ "=== Unique Subdomains Found ===") st)
       (map_range w (uniqueSubs st))).


(** ** Goroutines

    What a goroutine does to the rest of the process, in program order.
    [EvAdd] is a whole call of [addSubdomain]: the mutex makes it atomic. *)

Inductive event : Type :=
  | EvDo (req : Request)
  | EvSleep (d : Z)
  | EvPrint (line : string)
  | EvAdd (subdomain : string)
  | EvDone.

(** How a goroutine's function ends: it returns, or it panics (a nil
    pointer dereference), which makes the runtime abort the process. *)
Inductive status : Type :=
  | Returned
  | Panicked.

(** A goroutine-local computation: it extends the log of its effects. *)
Definition Go (A : Type) : Type := list event → list event * A.

#[local] Instance Go_ret : MRet Go := λ A a tr, (tr, a).
#[local] Instance Go_bind : MBind Go :=
  λ A B k m tr, let '(tr', a) := m tr in k a tr'.

Definition emit (e : event) : Go unit := λ tr, (tr ++ [e], tt).

Fixpoint for_each {A} (l : list A) (body : A → Go unit) : Go unit :=
  match l with
  | [] => mret tt
  | x :: rest => body x ;; for_each rest body
  end.

(** [defer wg.Done()]: runs when the function returns and when it panics. *)
Definition defer_wg_Done (body : Go status) : Go status :=
  s ← body; emit EvDone ;; mret s.

Definition is_do (e : event) : bool :=
  match e with EvDo _ => true | _ => false end.

Definition count_do (tr : list event) : nat :=
  length (filter (λ e, is_do e) tr).

(** [httpClient.Do(req)] *)
Definition Do (w : World) (req : Request) : Go DoResult :=
  λ tr, (tr ++ [EvDo req], http_do w req (count_do tr)).

(** ** [fetchWithRetries] (lines 71-83)

    [retry_loop n err] is the loop with [n] iterations left and [err] the
    current value of the variable [err]; the pair returned is Go's
    [(resp, err)]. *)
Fixpoint retry_loop (w : World) (req : Request) (n : nat) (err : option string)
  : Go (option Response * option string) :=
  match n with
  | O => mret (None, err)
  | S n' =>
      r ← Do w req;
      match r with
      | DoOk resp =>
          if decide (StatusCode resp = 200) then mret (Some resp, None)
          else emit (EvSleep retryDelay) ;; retry_loop w req n' None
      | DoErr e =>
          emit (EvSleep retryDelay) ;; retry_loop w req n' (Some e)
      end
  end.

Definition fetchWithRetries (w : World) (req : Request)
  : Go (option Response * option string) :=
  retry_loop w req retryLimit None.

(** ** Source adapters (lines 85-194) *)

Definition NewRequest (method url : string) : Request :=
  {| Method := method; URL := url; Header := [] |}.

Definition Header_Add (k v : string) (req : Request) : Request :=
  {| Method := Method req; URL := URL req; Header := Header req ++ [(k, v)] |}.

(** Lines 98-105: what [fetchFromCrtSh] records from a body. *)
Definition crtsh_findings (body : option json) : list string :=
  match decode_records body with
  | Some results =>
      omap (λ entry,
              match map_get "name_value" entry with
              | Some (JStr subdomain) => Some subdomain
              | _ => None
              end) results
  | None => []
  end.

(** Lines 127-134 and 155-162: what [fetchFromSecurityTrails] and
    [fetchFromShodan] record from a body. *)
Definition labels_findings (domain : string) (body : option json) : list string :=
  match decode_object body with
  | Some result =>
      match map_get "subdomains" result with
      | Some (JArr subs) => map (λ sub, Sprintf_s_dot_s sub domain) subs
      | _ => []
      end
  | None => []
  end.

(** Lines 184-193: what [fetchFromVirusTotal] records from a body. *)
Definition virustotal_findings (body : option json) : list string :=
  match decode_object body with
  | Some result =>
      match map_get "data" result with
      | Some (JArr data) =>
          omap (λ entry,
                  match entry with
                  | JStr subdomain => Some subdomain
                  | _ => None
                  end) data
      | _ => []
      end
  | None => []
  end.

(** The common tail of the four adapters: the error check, the deferred
    [resp.Body.Close()] (whose operand [resp.Body] is evaluated at the
    [defer] statement and dereferences [resp]), and the recording loop. *)
Definition record_response (source : string) (findings : option json → list string)
    (r : option Response * option string) : Go status :=
  match r.2 with
  | Some e => emit (EvPrint ("Error querying " +:+ source +:+ ": " +:+ e)) ;;
              mret Returned
  | None =>
      match r.1 with
      | None => mret Panicked
      | Some resp =>
          for_each (findings (Body resp)) (λ subdomain, emit (EvAdd subdomain)) ;;
          mret Returned
      end
  end.

Definition crtsh_request (domain : string) : Request :=
  NewRequest "GET" ("https://crt.sh/?q=%25." +:+ domain +:+ "&output=json").

Definition fetchFromCrtSh (w : World) (domain : string) : Go status :=
  defer_wg_Done (
    r ← fetchWithRetries w (crtsh_request domain);
    record_response "Crt.sh" crtsh_findings r).

Definition securitytrails_request (apiKey domain : string) : Request :=
  Header_Add "apikey" apiKey
    (NewRequest "GET"
       ("https://api.securitytrails.com/v1/domain/" +:+ domain +:+ "/subdomains")).

Definition fetchFromSecurityTrails (w : World) (apiKey domain : string) : Go status :=
  defer_wg_Done (
    if decide (apiKey = "") then
      emit (EvPrint "SecurityTrails not configured. Skipping results.") ;;
      mret Returned
    else
      r ← fetchWithRetries w (securitytrails_request apiKey domain);
      record_response "SecurityTrails" (labels_findings domain) r).

Definition shodan_request (apiKey domain : string) : Request :=
  NewRequest "GET"
    ("https://api.shodan.io/dns/domain/" +:+ domain +:+ "?key=" +:+ apiKey).

Definition fetchFromShodan (w : World) (apiKey domain : string) : Go status :=
  defer_wg_Done (
    if decide (apiKey = "") then
      emit (EvPrint "Shodan not configured. Skipping results.") ;;
      mret Returned
    else
      r ← fetchWithRetries w (shodan_request apiKey domain);
      record_response "Shodan" (labels_findings domain) r).

Definition virustotal_request (apiKey domain : string) : Request :=
  Header_Add "x-apikey" apiKey
    (NewRequest "GET"
       ("https://www.virustotal.com/api/v3/domains/" +:+ domain +:+ "/subdomains")).

Definition fetchFromVirusTotal (w : World) (apiKey domain : string) : Go status :=
  defer_wg_Done (
    if decide (apiKey = "") then
      emit (EvPrint "VirusTotal not configured. Skipping results.") ;;
      mret Returned
    else
      r ← fetchWithRetries w (virustotal_request apiKey domain);
      record_response "VirusTotal" virustotal_findings r).


(** ** Running the goroutines (lines 247-253) *)

Definition exec (e : event) (st : Proc) : Proc :=
  match e with
  | EvDo req => sent req st
  | EvSleep _ => st
  | EvPrint line => Println line st
  | EvAdd subdomain => addSubdomain subdomain st
  | EvDone => wg_add (-1) st
  end.

Definition exec_all (tr : list event) (st : Proc) : Proc :=
  foldl (λ s e, exec e s) st tr.

(** The scheduler picks, step after step, the goroutine that performs its
    next effect; a pick of a finished goroutine is void. *)
Fixpoint run_sched (sched : list nat) (gs : list (list event)) (st : Proc)
  : list (list event) * Proc :=
  match sched with
  | [] => (gs, st)
  | i :: sched' =>
      match gs !! i with
      | Some (e :: rest) => run_sched sched' (<[i:=rest]> gs) (exec e st)
      | _ => run_sched sched' gs st
      end
  end.

(** [wg.Wait()] lets every goroutine run to its end: whatever the schedule
    left over is run afterwards. *)
Definition run_goroutines (sched : list nat) (gs : list (list event)) (st : Proc)
  : Proc :=
  let '(gs', st') := run_sched sched gs st in exec_all (concat gs') st'.

(** ** [configureHTTPClient] (lines 41-68) *)

Inductive Flow (A : Type) : Type :=
  | Continue (a : A)
  | OsExit (code : Z) (st : Proc).
Arguments Continue {A} a.
Arguments OsExit {A} code st.

Definition configureHTTPClient (w : World) (proxyURL : string) (st : Proc)
  : Flow Proc :=
  if decide (proxyURL ≠ "") then
    match url_parse w proxyURL with
    | inl err => OsExit 1 (Println ("Error in proxy format: " +:+ err) st)
    | inr host =>
        let st := probed host st in
        match dial_tcp w host with
        | Some err =>
            OsExit 1 (Println ("Error connecting to the proxy: " +:+ err) st)
        | None =>
            Continue
              (set_client {| Timeout := defaultTimeout; Proxy := Some proxyURL |}
                 (Println ("Proxy configured: " +:+ proxyURL) st))
        end
    end
  else Continue (set_client {| Timeout := defaultTimeout; Proxy := None |} st).

(** ** [main] (lines 227-258) *)

(** How the process ends: with an exit status (0 when [main] returns), by a
    run-time panic (the runtime aborts the process; what the other
    goroutines had done by then is not modelled), or blocked in [wg.Wait()]
    for ever. *)
Inductive Outcome : Type :=
  | Exit (code : Z) (st : Proc)
  | GoPanic
  | Deadlock.

#[local] Instance status_eq_dec : EqDecision status.
Proof. solve_decision. Defined.

(** The four goroutines of lines 248-251, each run to its end on its own. *)
Definition goroutines (w : World) (cfg : Config) : list (list event * status) :=
  [ fetchFromCrtSh w (domain cfg) [];
    fetchFromSecurityTrails w (apiKeySecurityTrails cfg) (domain cfg) [];
    fetchFromShodan w (apiKeyShodan cfg) (domain cfg) [];
    fetchFromVirusTotal w (apiKeyVirusTotal cfg) (domain cfg) [] ].

(** [make(chan string, concurrency)] panics on a negative size (the limits
    of memory are not modelled). *)
Definition main (w : World) (cfg : Config) (sched : list nat) : Outcome :=
  if decide (domain cfg = "") then
    Exit 0 (Println "Usage: go run main.go -domain example.com" initial)
  else
    match configureHTTPClient w (proxyFlag cfg) initial with
    | OsExit code st => Exit code st
    | Continue st =>
        if decide (concurrencyFlag cfg < 0) then GoPanic
        else
          let st := wg_add 4 st in
          let gs := goroutines w cfg in
          if decide (Forall (λ g, g.2 = Returned) gs) then
            let st := run_goroutines sched gs.*1 st in
            if decide (wg st = 0) then Exit 0 (printAllSubdomains w st)
            else Deadlock
          else GoPanic
    end.

(** The final listing: the lines [printAllSubdomains] prints between its
    header and its footer. *)
Definition listing_header : string := newline +:+ "=== Unique Subdomains Found ===".

Definition listing_produced (o : Outcome) : Prop :=
  match o with
  | Exit _ st => listing_header ∈ stdout st
  | _ => False
  end.

(** ** Vocabulary of the properties *)

(** The strings a sequence of records leaves in the set. *)
Definition accepted (l : list string) : gset string :=
  list_to_set (filter (λ s, containsWildcard s = false) l).

Definition adds (tr : list event) : list string :=
  omap (λ e, match e with EvAdd s => Some s | _ => None end) tr.

Definition dos (tr : list event) : list Request :=
  omap (λ e, match e with EvDo req => Some req | _ => None end) tr.

Definition is_done (e : event) : bool :=
  match e with EvDone => true | _ => false end.

Definition count_done (tr : list event) : nat :=
  length (filter (λ e, is_done e) tr).

Definition succeeded (a : DoResult) : bool :=
  match a with
  | DoOk resp => bool_decide (StatusCode resp = 200)
  | DoErr _ => false
  end.


(** The log of [k] failed attempts, each followed by its sleep. *)
Definition failed_attempts (req : Request) (k : nat) : list event :=
  concat (replicate k [EvDo req; EvSleep retryDelay]).

(** What an adapter does with the pair [fetchWithRetries] returned. *)
Definition adapter_tail (source : string) (findings : option json → list string)
    (r : option Response * option string) : list event * status :=
  match r.2, r.1 with
  | Some e, _ => ([EvPrint ("Error querying " +:+ source +:+ ": " +:+ e)], Returned)
  | None, None => ([], Panicked)
  | None, Some resp => (map EvAdd (findings (Body resp)), Returned)
  end.

(** A whole adapter whose key, if it needs one, is set. *)
Definition adapter_run (w : World) (req : Request) (source : string)
    (findings : option json → list string) : list event * status :=
  let f := fetchWithRetries w req [] in
  let t := adapter_tail source findings f.2 in
  (f.1 ++ t.1 ++ [EvDone], t.2).




(** ** Worlds and configurations of the examples *)

(** A world without proxy trouble, whose maps are ranged over in the order
    of [elements], and whose network answers as [answer] says. *)
Definition world_of (answer : Request → nat → DoResult) : World :=
  {| url_parse := λ u, inr u;
     dial_tcp := λ _, None;
     http_do := answer;
     map_range := elements;
     map_range_perm := λ s, Permutation_refl (elements s) |}.

(** No API key in the environment, no proxy. *)
Definition basic_mode (d : string) : Config :=
  {| domain := d; concurrencyFlag := defaultConcurrency; proxyFlag := "";
     apiKeySecurityTrails := ""; apiKeyShodan := ""; apiKeyVirusTotal := "" |}.

Definition ok (body : json) : Response :=
  {| StatusCode := 200; Body := Some body |}.


(** The network of the retry example: a timeout, then a 503, then the
    answer. *)
Definition third_time_lucky (body : json) : Request → nat → DoResult :=
  λ _ n,
    match n with
    | 0%nat => DoErr "timeout"
    | 1%nat => DoOk {| StatusCode := 503; Body := None |}
    | _ => DoOk (ok body)
    end.

(** A network on which every request is answered with a 500 and no
    transport error. *)
Definition always_500 : Request → nat → DoResult :=
  λ _ _, DoOk {| StatusCode := 500; Body := None |}.

(** ** First-seen order *)

(** Recording the strings [l] one after the other. *)
Definition record_all (l : list string) (st : Proc) : Proc :=
  exec_all (EvAdd <$> l) st.

(** The strings of [l] that are accepted, each at its first occurrence;
    [seen] holds the strings accepted before. *)
Fixpoint first_seen (seen : gset string) (l : list string) : list string :=
  match l with
  | [] => []
  | s :: rest =>
      if containsWildcard s then first_seen seen rest
      else if decide (s ∈ seen) then first_seen seen rest
      else s :: first_seen ({[s]} ∪ seen) rest
  end.

Fixpoint strip_prefix (p s : string) : option string :=
  match p, s with
  | EmptyString, _ => Some s
  | String a p', String b s' => if decide (a = b) then strip_prefix p' s' else None
  | String _ _, EmptyString => None
  end.

(** The subdomain announced by a line ["Subdomain found: ..."]. *)
Definition found (line : string) : option string :=
  strip_prefix "Subdomain found: " line.

(** ** Shapes of the answers *)

Inductive source : Type :=
  | CrtSh
  | SecurityTrails
  | Shodan
  | VirusTotal.







(** A world whose proxy does not accept connections. *)
Definition dead_proxy : World :=
  {| url_parse := λ _, inr "127.0.0.1:8080";
     dial_tcp := λ _, Some "connection refused";
     http_do := always_500;
     map_range := elements;
     map_range_perm := λ s, Permutation_refl (elements s) |}.

Definition through_proxy (d proxy : string) : Config :=
  {| domain := d; concurrencyFlag := defaultConcurrency; proxyFlag := proxy;
     apiKeySecurityTrails := ""; apiKeyShodan := ""; apiKeyVirusTotal := "" |}.


(** ** Vocabulary of the further properties *)

Definition is_sleep (e : event) : bool :=
  match e with EvSleep _ => true | _ => false end.

Definition count_sleep (tr : list event) : nat :=
  length (filter (λ e, is_sleep e) tr).

(** The time a log spends in [time.Sleep], in nanoseconds. *)
Definition slept (tr : list event) : Z :=
  foldr (λ e total, match e with EvSleep d => d + total | _ => total end) 0 tr.








(** crt.sh is always queried, the others when their key is set. *)
Definition enabled (src : source) (cfg : Config) : Prop :=
  match src with
  | CrtSh => True
  | SecurityTrails => apiKeySecurityTrails cfg ≠ ""
  | Shodan => apiKeyShodan cfg ≠ ""
  | VirusTotal => apiKeyVirusTotal cfg ≠ ""
  end.

#[local] Instance enabled_dec src cfg : Decision (enabled src cfg).
Proof. destruct src; simpl; apply _. Defined.


Definition usage_line : string := "Usage: go run main.go -domain example.com".

Definition listing_footer : string := "==============================".


(** What each goroutine log contributes to the set. *)
Definition contributions (gs : list (list event)) : list (gset string) :=
  (λ g, accepted (adds g)) <$> gs.

Definition wildcard_notice (subdomain : string) : string :=
  "Ignoring subdomain with wildcard: " +:+ subdomain.
(** * Properties *)

(** ** The wildcard test *)

Lemma containsWildcard_first (c : ascii) (rest : string) :
  containsWildcard (String c rest) = bool_decide (c = "*"%char).
Proof.
  unfold containsWildcard. cbn [String.length String.get].
  rewrite (bool_decide_eq_true_2 (0 < _)%nat) by lia.
  rewrite andb_true_l. apply bool_decide_ext. split; congruence.
Qed.


(** ** One call of [addSubdomain] *)

Lemma accepted_nil : accepted [] = ∅.
Proof. done. Qed.

Lemma accepted_cons (s : string) (l : list string) :
  accepted (s :: l) =
  (if containsWildcard s then ∅ else {[s]}) ∪ accepted l.
Proof.
  unfold accepted. rewrite filter_cons.
  case_decide as H; rewrite ?H; simpl; [done|].
  apply not_false_is_true in H. rewrite H. set_solver.
Qed.

Lemma elem_of_accepted (s : string) (l : list string) :
  s ∈ accepted l ↔ s ∈ l ∧ containsWildcard s = false.
Proof. unfold accepted. rewrite elem_of_list_to_set, list_elem_of_filter. tauto. Qed.

Lemma accepted_app (l1 l2 : list string) :
  accepted (l1 ++ l2) = accepted l1 ∪ accepted l2.
Proof. unfold accepted. by rewrite filter_app, list_to_set_app_L. Qed.

Lemma accepted_perm (l1 l2 : list string) :
  l1 ≡ₚ l2 → accepted l1 = accepted l2.
Proof.
  intros H. apply set_eq. intros s. rewrite !elem_of_accepted. by rewrite H.
Qed.

Lemma addSubdomain_wildcard (s : string) (st : Proc) :
  containsWildcard s = true →
  addSubdomain s st = Println ("Ignoring subdomain with wildcard: " +:+ s) st.
Proof. unfold addSubdomain. by intros ->. Qed.

Lemma addSubdomain_seen (s : string) (st : Proc) :
  containsWildcard s = false → s ∈ uniqueSubs st → addSubdomain s st = st.
Proof. unfold addSubdomain. intros -> H. by rewrite decide_True. Qed.

Lemma addSubdomain_fresh (s : string) (st : Proc) :
  containsWildcard s = false → s ∉ uniqueSubs st →
  addSubdomain s st = Println ("Subdomain found: " +:+ s) (insert_sub s st).
Proof. unfold addSubdomain. intros -> H. by rewrite decide_False. Qed.

Lemma addSubdomain_subs (s : string) (st : Proc) :
  uniqueSubs (addSubdomain s st) = accepted [s] ∪ uniqueSubs st.
Proof.
  rewrite accepted_cons, accepted_nil. unfold addSubdomain.
  destruct (containsWildcard s); simpl; [set_solver|].
  case_decide; simpl; set_solver.
Qed.

Lemma addSubdomain_wg (s : string) (st : Proc) : wg (addSubdomain s st) = wg st.
Proof. unfold addSubdomain. repeat case_match; done. Qed.


(** ** Logs of effects *)

Lemma adds_app (l1 l2 : list event) : adds (l1 ++ l2) = adds l1 ++ adds l2.
Proof. apply omap_app. Qed.

Lemma dos_app (l1 l2 : list event) : dos (l1 ++ l2) = dos l1 ++ dos l2.
Proof. apply omap_app. Qed.

Lemma count_done_app (l1 l2 : list event) :
  count_done (l1 ++ l2) = (count_done l1 + count_done l2)%nat.
Proof. unfold count_done. by rewrite filter_app, length_app. Qed.

Lemma count_do_app (l1 l2 : list event) :
  count_do (l1 ++ l2) = (count_do l1 + count_do l2)%nat.
Proof. unfold count_do. by rewrite filter_app, length_app. Qed.

Lemma adds_map_EvAdd (l : list string) : adds (map EvAdd l) = l.
Proof. induction l as [|s l IH]; simpl; [done|]. unfold adds in *. simpl. by rewrite IH. Qed.

Lemma exec_all_app (l1 l2 : list event) (st : Proc) :
  exec_all (l1 ++ l2) st = exec_all l2 (exec_all l1 st).
Proof. apply foldl_app. Qed.

Lemma exec_all_subs (tr : list event) (st : Proc) :
  uniqueSubs (exec_all tr st) = uniqueSubs st ∪ accepted (adds tr).
Proof.
  revert st. induction tr as [|e tr IH]; intros st; simpl.
  - rewrite accepted_nil. set_solver.
  - rewrite IH. destruct e; simpl; try done.
    unfold adds. simpl. fold (adds tr).
    rewrite addSubdomain_subs, (accepted_cons subdomain (adds tr)).
    rewrite accepted_cons, accepted_nil. set_solver.
Qed.

Lemma exec_all_wg (tr : list event) (st : Proc) :
  wg (exec_all tr st) = wg st - Z.of_nat (count_done tr).
Proof.
  revert st. induction tr as [|e tr IH]; intros st.
  - unfold count_done. simpl. lia.
  - change (exec_all (e :: tr) st) with (exec_all tr (exec e st)).
    rewrite IH. change (e :: tr) with ([e] ++ tr). rewrite count_done_app.
    destruct e; unfold count_done; simpl; rewrite ?addSubdomain_wg; lia.
Qed.


(** ** Schedules *)

Lemma concat_next_perm {A} (gs : list (list A)) (i : nat) (e : A) (rest : list A) :
  gs !! i = Some (e :: rest) → concat gs ≡ₚ e :: concat (<[i:=rest]> gs).
Proof.
  revert i. induction gs as [|g gs IH]; intros [|i] H; simplify_eq/=.
  - done.
  - rewrite (IH _ H). by rewrite Permutation_middle.
Qed.

(** Whatever the schedule, the process performs the effects of the
    goroutines in some order, each once. *)
Lemma run_goroutines_interleaving (sched : list nat) (gs : list (list event))
    (st : Proc) :
  ∃ l, l ≡ₚ concat gs ∧ run_goroutines sched gs st = exec_all l st.
Proof.
  unfold run_goroutines. revert gs st.
  induction sched as [|i sched IH]; intros gs st; simpl.
  - by exists (concat gs).
  - destruct (gs !! i) as [[|e rest]|] eqn:Hi; try apply IH.
    destruct (IH (<[i:=rest]> gs) (exec e st)) as (l & Hl & Heq).
    exists (e :: l). split; [|done].
    by rewrite Hl, <- (concat_next_perm gs i e rest).
Qed.

Lemma adds_perm (l1 l2 : list event) : l1 ≡ₚ l2 → adds l1 ≡ₚ adds l2.
Proof. intros H. unfold adds. by rewrite H. Qed.


Lemma count_done_perm (l1 l2 : list event) :
  l1 ≡ₚ l2 → count_done l1 = count_done l2.
Proof. intros H. unfold count_done. by rewrite H. Qed.

Lemma run_goroutines_subs (sched : list nat) (gs : list (list event)) (st : Proc) :
  uniqueSubs (run_goroutines sched gs st) =
  uniqueSubs st ∪ accepted (adds (concat gs)).
Proof.
  destruct (run_goroutines_interleaving sched gs st) as (l & Hl & ->).
  rewrite exec_all_subs. f_equal. by apply accepted_perm, adds_perm.
Qed.

Lemma run_goroutines_wg (sched : list nat) (gs : list (list event)) (st : Proc) :
  wg (run_goroutines sched gs st) = wg st - Z.of_nat (count_done (concat gs)).
Proof.
  destruct (run_goroutines_interleaving sched gs st) as (l & Hl & ->).
  by rewrite exec_all_wg, (count_done_perm _ _ Hl).
Qed.


(** ** The retry loop *)

Lemma failed_attempts_S (req : Request) (k : nat) :
  failed_attempts req (S k) = [EvDo req; EvSleep retryDelay] ++ failed_attempts req k.
Proof. done. Qed.

Lemma count_do_failed_attempts (req : Request) (k : nat) :
  count_do (failed_attempts req k) = k.
Proof.
  induction k as [|k IH]; [done|].
  rewrite failed_attempts_S, count_do_app, IH. done.
Qed.

Section retry.
Context (w : World) (req : Request).

Lemma retry_loop_S (n : nat) (err : option string) (tr : list event) :
  retry_loop w req (S n) err tr =
  match http_do w req (count_do tr) with
  | DoOk resp =>
      if decide (StatusCode resp = 200)
      then (tr ++ [EvDo req], (Some resp, None))
      else retry_loop w req n None (tr ++ [EvDo req; EvSleep retryDelay])
  | DoErr e => retry_loop w req n (Some e) (tr ++ [EvDo req; EvSleep retryDelay])
  end.
Proof.
  cbn [retry_loop]. unfold mbind, Go_bind, Do, emit, mret, Go_ret.
  change [EvDo req; EvSleep retryDelay] with ([EvDo req] ++ [EvSleep retryDelay]).
  rewrite (assoc_L (++) tr [EvDo req] [EvSleep retryDelay]).
  destruct (http_do w req (count_do tr)) as [e|resp]; [done|].
  by case_decide.
Qed.

Lemma count_do_step (tr : list event) :
  count_do (tr ++ [EvDo req; EvSleep retryDelay]) = S (count_do tr).
Proof. rewrite count_do_app. unfold count_do at 2. simpl. lia. Qed.

(** The first attempt that succeeds ends the loop. *)
Lemma retry_loop_success (k n : nat) (err : option string) (tr : list event)
    (resp : Response) :
  (k < n)%nat →
  (∀ j, (j < k)%nat → succeeded (http_do w req (count_do tr + j)) = false) →
  http_do w req (count_do tr + k) = DoOk resp →
  StatusCode resp = 200 →
  retry_loop w req n err tr =
  (tr ++ failed_attempts req k ++ [EvDo req], (Some resp, None)).
Proof.
  revert n err tr. induction k as [|k IH]; intros n err tr Hn Hfail Hk H200.
  - destruct n as [|n]; [lia|]. rewrite retry_loop_S.
    rewrite Nat.add_0_r in Hk. rewrite Hk. by rewrite decide_True.
  - destruct n as [|n]; [lia|]. rewrite retry_loop_S.
    pose proof (Hfail 0%nat ltac:(lia)) as H0. rewrite Nat.add_0_r in H0.
    assert (∀ e', retry_loop w req n e' (tr ++ [EvDo req; EvSleep retryDelay]) =
                  (tr ++ failed_attempts req (S k) ++ [EvDo req], (Some resp, None)))
      as Hrest.
    { intros e'. rewrite (IH n e' _ ltac:(lia)); try done.
      - rewrite failed_attempts_S. by rewrite <- !(assoc_L (++)).
      - intros j Hj. rewrite count_do_step.
        replace (S (count_do tr) + j)%nat with (count_do tr + S j)%nat by lia.
        apply Hfail. lia.
      - rewrite count_do_step.
        by replace (S (count_do tr) + k)%nat with (count_do tr + S k)%nat by lia. }
    destruct (http_do w req (count_do tr)) as [e|r]; [apply Hrest|].
    simpl in H0. apply bool_decide_eq_false in H0.
    rewrite decide_False by done. apply Hrest.
Qed.


(** In every case the loop only sends [req] and sleeps, and sends at
    most [n] times. *)
Lemma retry_loop_log (n : nat) (err : option string) (tr : list event) :
  ∃ l, (retry_loop w req n err tr).1 = tr ++ l ∧
       Forall (λ e, e = EvDo req ∨ e = EvSleep retryDelay) l ∧
       (count_do l ≤ n)%nat.
Proof.
  revert err tr. induction n as [|n IH]; intros err tr.
  - exists []. simpl. by rewrite app_nil_r.
  - rewrite retry_loop_S.
    assert (∀ e', ∃ l,
      (retry_loop w req n e' (tr ++ [EvDo req; EvSleep retryDelay])).1 = tr ++ l ∧
      Forall (λ e, e = EvDo req ∨ e = EvSleep retryDelay) l ∧
      (count_do l ≤ S n)%nat) as Hrest.
    { intros e'. destruct (IH e' (tr ++ [EvDo req; EvSleep retryDelay]))
        as (l & Hl & Hall & Hcount).
      exists ([EvDo req; EvSleep retryDelay] ++ l). split_and!.
      - rewrite Hl. by rewrite <- (assoc_L (++)).
      - apply Forall_app. split; [|done].
        apply Forall_cons_2; [by left|]. apply Forall_cons_2; [by right|].
        apply Forall_nil_2.
      - rewrite count_do_app. unfold count_do at 1. simpl. lia. }
    destruct (http_do w req (count_do tr)) as [e|r]; [apply Hrest|].
    case_decide; [|apply Hrest].
    exists [EvDo req]. split_and!; [done| |].
    + apply Forall_cons_2; [by left | apply Forall_nil_2].
    + unfold count_do. simpl. lia.
Qed.
End retry.

(** ** The adapters *)

Lemma for_each_adds (l : list string) (tr : list event) :
  for_each l (λ subdomain, emit (EvAdd subdomain)) tr = (tr ++ map EvAdd l, tt).
Proof.
  revert tr. induction l as [|s l IH]; intros tr; simpl.
  - unfold mret, Go_ret. by rewrite app_nil_r.
  - unfold mbind, Go_bind, emit at 1. rewrite IH.
    by rewrite <- (assoc_L (++)).
Qed.

Lemma adapter_spec (w : World) (req : Request) (source : string)
    (findings : option json → list string) :
  defer_wg_Done (r ← fetchWithRetries w req; record_response source findings r) [] =
  adapter_run w req source findings.
Proof.
  unfold adapter_run, defer_wg_Done, mbind, Go_bind.
  destruct (fetchWithRetries w req []) as [tr [resp err]].
  unfold record_response, adapter_tail, mbind, Go_bind, emit, mret, Go_ret. simpl.
  destruct err as [e|]; simpl.
  - by rewrite <- (assoc_L (++)).
  - destruct resp as [resp|]; simpl; [|done].
    rewrite for_each_adds. by rewrite <- (assoc_L (++)).
Qed.

Lemma fetchFromCrtSh_run (w : World) (d : string) :
  fetchFromCrtSh w d [] = adapter_run w (crtsh_request d) "Crt.sh" crtsh_findings.
Proof. apply adapter_spec. Qed.

Lemma fetchFromSecurityTrails_run (w : World) (k d : string) :
  k ≠ "" →
  fetchFromSecurityTrails w k d [] =
  adapter_run w (securitytrails_request k d) "SecurityTrails" (labels_findings d).
Proof.
  intros Hk. unfold fetchFromSecurityTrails. rewrite decide_False by done.
  apply adapter_spec.
Qed.

Lemma fetchFromShodan_run (w : World) (k d : string) :
  k ≠ "" →
  fetchFromShodan w k d [] =
  adapter_run w (shodan_request k d) "Shodan" (labels_findings d).
Proof.
  intros Hk. unfold fetchFromShodan. rewrite decide_False by done.
  apply adapter_spec.
Qed.

Lemma fetchFromVirusTotal_run (w : World) (k d : string) :
  k ≠ "" →
  fetchFromVirusTotal w k d [] =
  adapter_run w (virustotal_request k d) "VirusTotal" virustotal_findings.
Proof.
  intros Hk. unfold fetchFromVirusTotal. rewrite decide_False by done.
  apply adapter_spec.
Qed.






Lemma adds_fetch_log (req : Request) (l : list event) :
  Forall (λ e, e = EvDo req ∨ e = EvSleep retryDelay) l →
  adds l = [] ∧ count_done l = 0%nat.
Proof.
  induction 1 as [|e l [-> | ->] _ [IH1 IH2]]; [done|..];
    unfold adds, count_done in *; simpl; by rewrite ?IH1, ?IH2.
Qed.

Lemma adapter_tail_done (source : string) (findings : option json → list string)
    (r : option Response * option string) :
  count_done (adapter_tail source findings r).1 = 0%nat.
Proof.
  unfold adapter_tail. destruct r as [[resp|] [e|]]; simpl; try done.
  induction (findings (Body resp)) as [|s l IH]; [done|].
  unfold count_done in *. by simpl.
Qed.

(** Every adapter calls [wg.Done()] exactly once. *)
Lemma adapter_run_done (w : World) (req : Request) (source : string)
    (findings : option json → list string) :
  count_done (adapter_run w req source findings).1 = 1%nat.
Proof.
  unfold adapter_run. simpl.
  destruct (retry_loop_log w req retryLimit None []) as (l & Hl & Hall & _).
  unfold fetchWithRetries. rewrite Hl. simpl.
  rewrite !count_done_app, adapter_tail_done.
  by destruct (adds_fetch_log req l Hall) as [_ ->].
Qed.

Lemma goroutines_done (w : World) (cfg : Config) :
  count_done (concat (goroutines w cfg).*1) = 4%nat.
Proof.
  unfold goroutines. simpl. rewrite app_nil_r, !count_done_app.
  rewrite fetchFromCrtSh_run, adapter_run_done.
  assert (∀ k d, count_done (fetchFromSecurityTrails w k d []).1 = 1%nat) as ->.
  { intros k d. destruct (decide (k = "")) as [->|Hk]; [done|].
    by rewrite fetchFromSecurityTrails_run, adapter_run_done. }
  assert (∀ k d, count_done (fetchFromShodan w k d []).1 = 1%nat) as ->.
  { intros k d. destruct (decide (k = "")) as [->|Hk]; [done|].
    by rewrite fetchFromShodan_run, adapter_run_done. }
  assert (∀ k d, count_done (fetchFromVirusTotal w k d []).1 = 1%nat) as ->.
  { intros k d. destruct (decide (k = "")) as [->|Hk]; [done|].
    by rewrite fetchFromVirusTotal_run, adapter_run_done. }
  done.
Qed.

(** ** [printAllSubdomains] and [configureHTTPClient] *)

Lemma foldl_Println (l : list string) (st : Proc) :
  let st' := foldl (λ s line, Println line s) st l in
  uniqueSubs st' = uniqueSubs st ∧ stdout st' = stdout st ++ l ∧
  requests st' = requests st ∧ wg st' = wg st.
Proof.
  revert st. induction l as [|x l IH]; intros st; simpl.
  - by rewrite app_nil_r.
  - destruct (IH (Println x st)) as (-> & -> & -> & ->). simpl.
    by rewrite <- (assoc_L (++)).
Qed.

Lemma printAllSubdomains_spec (w : World) (st : Proc) :
  uniqueSubs (printAllSubdomains w st) = uniqueSubs st ∧
  stdout (printAllSubdomains w st) =
    stdout st ++ [listing_header] ++ map_range w (uniqueSubs st)
      ++ ["=============================="] ∧
  requests (printAllSubdomains w st) = requests st.
Proof.
  unfold printAllSubdomains. simpl.
  destruct (foldl_Println (map_range w (uniqueSubs st))
              (Println (newline +:+ "=== Unique Subdomains Found ===") st))
    as (-> & -> & -> & _).
  simpl. split_and!; [done| |done].
  by rewrite <- !(assoc_L (++)).
Qed.

Lemma configureHTTPClient_Continue (w : World) (proxyURL : string) (st st' : Proc) :
  configureHTTPClient w proxyURL st = Continue st' →
  uniqueSubs st' = uniqueSubs st ∧ wg st' = wg st ∧ requests st' = requests st.
Proof.
  unfold configureHTTPClient. intros H.
  repeat case_match; simplify_eq; done.
Qed.

(** ** A run in which no goroutine panics *)



(** * The claims *)

Lemma count_occ_NoDup (l : list string) (s : string) :
  NoDup l → s ∈ l → count_occ String.string_dec l s = 1%nat.
Proof.
  intros Hnd Hin.
  apply NoDup_ListNoDup in Hnd.
  apply (proj1 (NoDup_count_occ' String.string_dec l) Hnd).
  by apply list_elem_of_In.
Qed.


(** C1: whatever strings the goroutines record through [addSubdomain], how
    often, and under whatever schedule, the final [uniqueSubs] is the set of
    the recorded strings that are no wildcards, and it (and the listing
    ranged from it) holds each of them exactly once; the first record of a
    string inserts it, every later record of the same string changes
    nothing. *)
Theorem C1_each_distinct_string_exactly_once
    (w : World) (sched : list nat) (gs : list (list event)) (s : string) :
  s ∈ adds (concat gs) →
  containsWildcard s = false →
  let final := run_goroutines sched gs initial in
  uniqueSubs final = accepted (adds (concat gs)) ∧
  s ∈ uniqueSubs final ∧
  count_occ String.string_dec (elements (uniqueSubs final)) s = 1%nat ∧
  count_occ String.string_dec (map_range w (uniqueSubs final)) s = 1%nat ∧
  (∀ st, s ∉ uniqueSubs st →
         uniqueSubs (addSubdomain s st) = {[s]} ∪ uniqueSubs st) ∧
  (∀ st, s ∈ uniqueSubs st → addSubdomain s st = st).
Proof.
  intros Hin Hw final.
  assert (uniqueSubs final = accepted (adds (concat gs))) as Hfinal.
  { unfold final. rewrite run_goroutines_subs. simpl. set_solver. }
  assert (s ∈ uniqueSubs final) as Hs.
  { rewrite Hfinal. by apply elem_of_accepted. }
  split_and!; [done|done| | | |].
  - apply count_occ_NoDup; [apply NoDup_elements | by apply elem_of_elements].
  - apply count_occ_NoDup.
    + rewrite (map_range_perm w). apply NoDup_elements.
    + rewrite (map_range_perm w). by apply elem_of_elements.
  - intros st Hst. by rewrite addSubdomain_fresh.
  - intros st Hst. by apply addSubdomain_seen.
Qed.

Lemma C1_witness :
  let gs := [ [EvAdd "a.example.com"; EvAdd "b.example.com"; EvAdd "a.example.com"];
              [EvAdd "*.example.com"; EvAdd "a.example.com"] ] in
  let final := run_goroutines [1; 0; 1; 0]%nat gs initial in
  uniqueSubs final = accepted (adds (concat gs)) ∧
  "a.example.com" ∈ uniqueSubs final ∧
  count_occ String.string_dec (elements (uniqueSubs final)) "a.example.com" = 1%nat ∧
  count_occ String.string_dec
    (map_range (world_of (λ _ _, DoErr "down")) (uniqueSubs final)) "a.example.com"
    = 1%nat ∧
  (∀ st, "a.example.com" ∉ uniqueSubs st →
         uniqueSubs (addSubdomain "a.example.com" st)
         = {["a.example.com"]} ∪ uniqueSubs st) ∧
  (∀ st, "a.example.com" ∈ uniqueSubs st → addSubdomain "a.example.com" st = st).
Proof.
  intros gs.
  apply (C1_each_distinct_string_exactly_once
           (world_of (λ _ _, DoErr "down")) [1; 0; 1; 0]%nat gs "a.example.com").
  - apply list_elem_of_In. simpl. auto.
  - reflexivity.
Defined.






(** C10: only the first character is tested.  A finding whose first
    character is not [*] is no wildcard, whatever the rest holds ([*]
    included): [addSubdomain] inserts it, it is in the final set of every
    run that records it, and the listing ranged from that set shows it. *)
Theorem C10_only_first_character_is_tested
    (w : World) (subdomain : string) (sched : list nat) (gs : list (list event)) :
  String.get 0 subdomain ≠ Some "*"%char →
  subdomain ∈ adds (concat gs) →
  containsWildcard subdomain = false ∧
  (∀ c rest rest',
     containsWildcard (String c rest) = containsWildcard (String c rest')) ∧
  (∀ st, subdomain ∈ uniqueSubs (addSubdomain subdomain st)) ∧
  subdomain ∈ uniqueSubs (run_goroutines sched gs initial) ∧
  subdomain ∈ map_range w (uniqueSubs (run_goroutines sched gs initial)).
Proof.
  intros Hfirst Hin.
  assert (containsWildcard subdomain = false) as Hw.
  { destruct subdomain as [|c rest]; [done|].
    rewrite containsWildcard_first. apply bool_decide_eq_false.
    intros ->. by apply Hfirst. }
  assert (subdomain ∈ uniqueSubs (run_goroutines sched gs initial)) as Hfinal.
  { rewrite run_goroutines_subs. apply elem_of_union_r.
    by apply elem_of_accepted. }
  split_and!; [done| | |done|].
  - intros c rest rest'. by rewrite !containsWildcard_first.
  - intros st. rewrite addSubdomain_subs. apply elem_of_union_l.
    apply elem_of_accepted. split; [|done]. apply list_elem_of_here.
  - rewrite (map_range_perm w). by apply elem_of_elements.
Qed.

Lemma C10_witness :
  let w := world_of always_500 in
  let gs := [[EvAdd "www.example.com"]; [EvAdd "sub.*.example.com"]] in
  containsWildcard "sub.*.example.com" = false ∧
  (∀ c rest rest',
     containsWildcard (String c rest) = containsWildcard (String c rest')) ∧
  (∀ st, "sub.*.example.com" ∈ uniqueSubs (addSubdomain "sub.*.example.com" st)) ∧
  "sub.*.example.com" ∈ uniqueSubs (run_goroutines [1; 0]%nat gs initial) ∧
  "sub.*.example.com" ∈ map_range w (uniqueSubs (run_goroutines [1; 0]%nat gs initial)).
Proof.
  intros w gs.
  apply (C10_only_first_character_is_tested w "sub.*.example.com" [1; 0]%nat gs).
  - simpl. discriminate.
  - apply list_elem_of_In. simpl. auto.
Defined.

(** C4: [fetchWithRetries] sends the request at most [retryLimit] = 3 times;
    the first attempt that comes back without transport error and with
    status 200 is returned at once, with a nil error and no attempt after
    it.  With [k] = 2: two failures, then the response of the third
    attempt. *)
Theorem C4_at_most_three_attempts_first_success_returned
    (w : World) (req : Request) (tr : list event) (k : nat) (resp : Response) :
  (k < retryLimit)%nat →
  (∀ j, (j < k)%nat → succeeded (http_do w req (count_do tr + j)) = false) →
  http_do w req (count_do tr + k) = DoOk resp →
  StatusCode resp = 200 →
  retryLimit = 3%nat ∧
  (∀ w' req' tr', ∃ l,
     (fetchWithRetries w' req' tr').1 = tr' ++ l ∧ (count_do l ≤ retryLimit)%nat) ∧
  fetchWithRetries w req tr =
    (tr ++ failed_attempts req k ++ [EvDo req], (Some resp, None)) ∧
  count_do (failed_attempts req k ++ [EvDo req]) = S k.
Proof.
  intros Hk Hfail Hdo H200. split_and!.
  - done.
  - intros w' req' tr'.
    destruct (retry_loop_log w' req' retryLimit None tr') as (l & Hl & _ & Hc).
    by exists l.
  - unfold fetchWithRetries. by apply retry_loop_success.
  - rewrite count_do_app, count_do_failed_attempts. unfold count_do. simpl. lia.
Qed.

Lemma C4_witness :
  let w := world_of (third_time_lucky (JArr [])) in
  let req := crtsh_request "example.com" in
  retryLimit = 3%nat ∧
  (∀ w' req' tr', ∃ l,
     (fetchWithRetries w' req' tr').1 = tr' ++ l ∧ (count_do l ≤ retryLimit)%nat) ∧
  fetchWithRetries w req [] =
    ([] ++ failed_attempts req 2 ++ [EvDo req], (Some (ok (JArr [])), None)) ∧
  count_do (failed_attempts req 2 ++ [EvDo req]) = 3%nat.
Proof.
  intros w req.
  apply (C4_at_most_three_attempts_first_success_returned w req [] 2 (ok (JArr []))).
  - unfold retryLimit. lia.
  - intros j Hj. destruct j as [|[|j]]; [reflexivity | reflexivity | lia].
  - reflexivity.
  - reflexivity.
Defined.

(** C2 (the code at the failing input): when all three attempts come back
    with status 500 and no transport error, [fetchWithRetries] returns a nil
    response together with a nil error; [fetchFromCrtSh] passes the error
    check and panics on [resp.Body]; the run ends by that panic. *)
Theorem C2_exhausted_on_non_200_returns_nil_error :
  let w := world_of always_500 in
  let req := crtsh_request "example.com" in
  fetchWithRetries w req [] = (failed_attempts req 3, (None, None)) ∧
  fetchFromCrtSh w "example.com" [] = (failed_attempts req 3 ++ [EvDone], Panicked) ∧
  adds (fetchFromCrtSh w "example.com" []).1 = [] ∧
  ∀ sched, main w (basic_mode "example.com") sched = GoPanic.
Proof.
  split_and!; try reflexivity.
Qed.





Lemma labels_findings_strings (d : string) (fields : list (string * json))
    (labels : list string) :
  map_get "subdomains" fields = Some (JArr (JStr <$> labels)) →
  labels_findings d (Some (JObj fields)) = (λ label, label +:+ "." +:+ d) <$> labels.
Proof.
  intros H. unfold labels_findings. simpl. rewrite H. clear H.
  induction labels as [|label labels IH]; [done|].
  rewrite !fmap_cons. cbn [map]. f_equal. exact IH.
Qed.



(** C7: with a proxy URL that does not parse, or whose host refuses the TCP
    probe, [configureHTTPClient] exits with status 1; [main] then ends with
    that status, having sent no request and printed no listing.  Without a
    proxy URL nothing is probed and [configureHTTPClient] goes on, in every
    world. *)
Theorem C7_bad_proxy_exits_before_any_fetch
    (w : World) (cfg : Config) (sched : list nat) :
  domain cfg ≠ "" →
  proxyFlag cfg ≠ "" →
  (∃ err, url_parse w (proxyFlag cfg) = inl err) ∨
  (∃ host err, url_parse w (proxyFlag cfg) = inr host ∧ dial_tcp w host = Some err) →
  (∃ st, configureHTTPClient w (proxyFlag cfg) initial = OsExit 1 st ∧
         main w cfg sched = Exit 1 st ∧
         requests st = [] ∧
         uniqueSubs st = ∅ ∧
         ¬ listing_produced (main w cfg sched)) ∧
  (∀ w' st', configureHTTPClient w' "" st' =
               Continue (set_client {| Timeout := defaultTimeout; Proxy := None |} st')
             ∧ probes (set_client {| Timeout := defaultTimeout; Proxy := None |} st')
               = probes st').
Proof.
  intros Hd Hp Hbad. split; [|done].
  assert (∃ st line, configureHTTPClient w (proxyFlag cfg) initial = OsExit 1 st ∧
                     requests st = [] ∧ uniqueSubs st = ∅ ∧
                     stdout st = ["Error " +:+ line]) as (st & line & Hc & Hr & Hu & Ho).
  { unfold configureHTTPClient. rewrite decide_True by done.
    destruct Hbad as [[err ->] | (host & err & -> & Hdial)].
    - eexists _, ("in proxy format: " +:+ err). by split_and!.
    - simpl. rewrite Hdial.
      eexists _, ("connecting to the proxy: " +:+ err). by split_and!. }
  assert (main w cfg sched = Exit 1 st) as Hm.
  { unfold main. rewrite decide_False by done. by rewrite Hc. }
  exists st. split_and!; try done.
  rewrite Hm. simpl. rewrite Ho. intros H.
  apply list_elem_of_singleton in H. discriminate.
Qed.

Lemma C7_witness :
  (∃ st, configureHTTPClient dead_proxy "http://127.0.0.1:8080" initial = OsExit 1 st ∧
         main dead_proxy (through_proxy "example.com" "http://127.0.0.1:8080") [0]%nat
           = Exit 1 st ∧
         requests st = [] ∧
         uniqueSubs st = ∅ ∧
         ¬ listing_produced
             (main dead_proxy (through_proxy "example.com" "http://127.0.0.1:8080")
                [0]%nat)).
Proof.
  apply (C7_bad_proxy_exits_before_any_fetch dead_proxy
           (through_proxy "example.com" "http://127.0.0.1:8080") [0]%nat).
  - simpl. discriminate.
  - simpl. discriminate.
  - right. exists "127.0.0.1:8080", "connection refused". split; reflexivity.
Defined.

(** ** Order of insertion *)

Lemma found_found (s : string) : found ("Subdomain found: " +:+ s) = Some s.
Proof. done. Qed.

Lemma found_ignoring (s : string) :
  found ("Ignoring subdomain with wildcard: " +:+ s) = None.
Proof. done. Qed.

Lemma stdout_Println (line : string) (st : Proc) :
  stdout (Println line st) = stdout st ++ [line].
Proof. done. Qed.

Lemma uniqueSubs_Println (line : string) (st : Proc) :
  uniqueSubs (Println line st) = uniqueSubs st.
Proof. done. Qed.

Lemma omap_found_ignoring (lines : list string) (s : string) :
  omap found (lines ++ ["Ignoring subdomain with wildcard: " +:+ s]) =
  omap found lines.
Proof.
  rewrite omap_app.
  assert (omap found ["Ignoring subdomain with wildcard: " +:+ s] = []) as -> by done.
  by rewrite app_nil_r.
Qed.

Lemma omap_found_found (lines : list string) (s : string) :
  omap found (lines ++ ["Subdomain found: " +:+ s]) = omap found lines ++ [s].
Proof.
  rewrite omap_app.
  by assert (omap found ["Subdomain found: " +:+ s] = [s]) as -> by done.
Qed.

Lemma record_all_cons (s : string) (l : list string) (st : Proc) :
  record_all (s :: l) st = record_all l (addSubdomain s st).
Proof. done. Qed.

Lemma record_all_subs (l : list string) (st : Proc) :
  uniqueSubs (record_all l st) = uniqueSubs st ∪ accepted l.
Proof.
  unfold record_all. rewrite exec_all_subs. f_equal.
  change (EvAdd <$> l) with (map EvAdd l). by rewrite adds_map_EvAdd.
Qed.


(** The lines "Subdomain found:" come out in first-seen order. *)
Lemma record_all_found (l : list string) (st : Proc) :
  omap found (stdout (record_all l st)) =
  omap found (stdout st) ++ first_seen (uniqueSubs st) l.
Proof.
  revert st. induction l as [|s l IH]; intros st.
  - simpl. by rewrite app_nil_r.
  - rewrite record_all_cons, IH. cbn [first_seen].
    destruct (containsWildcard s) eqn:Hw.
    + rewrite addSubdomain_wildcard by done.
      by rewrite stdout_Println, uniqueSubs_Println, omap_found_ignoring.
    + case_decide as Hin.
      * by rewrite addSubdomain_seen.
      * rewrite addSubdomain_fresh by done.
        rewrite stdout_Println, uniqueSubs_Println, omap_found_found.
        by rewrite <- (assoc_L (++)).
Qed.

Lemma first_seen_spec (seen : gset string) (l : list string) :
  NoDup (first_seen seen l) ∧
  ∀ x, x ∈ first_seen seen l ↔ x ∈ accepted l ∧ x ∉ seen.
Proof.
  revert seen. induction l as [|s l IH]; intros seen.
  - split; [constructor|]. intros x. rewrite accepted_nil. set_solver.
  - cbn [first_seen]. rewrite accepted_cons.
    destruct (containsWildcard s) eqn:Hw.
    + destruct (IH seen) as [Hnd Hx]. split; [done|].
      intros x. rewrite Hx. set_solver.
    + case_decide as Hin.
      * destruct (IH seen) as [Hnd Hx]. split; [done|].
        intros x. rewrite Hx. set_solver.
      * destruct (IH ({[s]} ∪ seen)) as [Hnd Hx]. split.
        -- constructor; [|done]. rewrite Hx. set_solver.
        -- intros x. rewrite elem_of_cons, Hx.
           destruct (decide (x = s)) as [->|Hne]; set_solver.
Qed.





(** ** Answers of unexpected shape *)










(** * Further properties of the code *)

(** ** [fetchWithRetries] *)

Lemma count_sleep_app (l1 l2 : list event) :
  count_sleep (l1 ++ l2) = (count_sleep l1 + count_sleep l2)%nat.
Proof. unfold count_sleep. by rewrite filter_app, length_app. Qed.

Lemma slept_app (l1 l2 : list event) : slept (l1 ++ l2) = slept l1 + slept l2.
Proof.
  induction l1 as [|e l1 IH]; simpl; [done|]. destruct e; rewrite ?IH; lia.
Qed.

Lemma slept_fetch_log (req : Request) (l : list event) :
  Forall (λ e, e = EvDo req ∨ e = EvSleep retryDelay) l →
  slept l = Z.of_nat (count_sleep l) * retryDelay.
Proof.
  induction 1 as [|e l [-> | ->] _ IH].
  - done.
  - change (EvDo req :: l) with ([EvDo req] ++ l).
    rewrite slept_app, count_sleep_app, IH.
    change (count_sleep [EvDo req]) with 0%nat. change (slept [EvDo req]) with 0.
    unfold retryDelay, second. lia.
  - change (EvSleep retryDelay :: l) with ([EvSleep retryDelay] ++ l).
    rewrite slept_app, count_sleep_app, IH.
    change (count_sleep [EvSleep retryDelay]) with 1%nat.
    change (slept [EvSleep retryDelay]) with (retryDelay + 0).
    unfold retryDelay, second. lia.
Qed.

(** The shape of the loop's log against its result: a response comes with a
    nil error, status 200 and no sleep after it; a nil response comes after
    [n] requests, each followed by a sleep. *)
Lemma retry_loop_shape (w : World) (req : Request) (n : nat)
    (err : option string) (tr : list event) :
  ∃ l, (retry_loop w req n err tr).1 = tr ++ l ∧
       Forall (λ e, e = EvDo req ∨ e = EvSleep retryDelay) l ∧
       match (retry_loop w req n err tr).2.1 with
       | Some resp =>
           (retry_loop w req n err tr).2.2 = None ∧ StatusCode resp = 200 ∧
           count_do l = S (count_sleep l) ∧ (count_do l ≤ n)%nat
       | None => count_do l = n ∧ count_sleep l = n
       end.
Proof.
  revert err tr. induction n as [|n IH]; intros err tr.
  - exists []. simpl. rewrite app_nil_r. split_and!; [done|constructor|done|done].
  - rewrite retry_loop_S.
    assert (∀ e', ∃ l,
      (retry_loop w req n e' (tr ++ [EvDo req; EvSleep retryDelay])).1 = tr ++ l ∧
      Forall (λ e, e = EvDo req ∨ e = EvSleep retryDelay) l ∧
      match (retry_loop w req n e' (tr ++ [EvDo req; EvSleep retryDelay])).2.1 with
      | Some resp =>
          (retry_loop w req n e' (tr ++ [EvDo req; EvSleep retryDelay])).2.2 = None ∧
          StatusCode resp = 200 ∧
          count_do l = S (count_sleep l) ∧ (count_do l ≤ S n)%nat
      | None => count_do l = S n ∧ count_sleep l = S n
      end) as Hrest.
    { intros e'. destruct (IH e' (tr ++ [EvDo req; EvSleep retryDelay]))
        as (l & Hl & Hall & Hres).
      exists ([EvDo req; EvSleep retryDelay] ++ l). split_and!.
      - rewrite Hl. by rewrite <- (assoc_L (++)).
      - apply Forall_app. split; [|done].
        apply Forall_cons_2; [by left|]. apply Forall_cons_2; [by right|].
        apply Forall_nil_2.
      - rewrite count_do_app, count_sleep_app.
        change (count_do [EvDo req; EvSleep retryDelay]) with 1%nat.
        change (count_sleep [EvDo req; EvSleep retryDelay]) with 1%nat.
        destruct ((retry_loop w req n e' (tr ++ [EvDo req; EvSleep retryDelay])).2.1);
          [destruct Hres as (? & ? & ? & ?); split_and!; [done|done|lia|lia]
          | destruct Hres; split; lia]. }
    destruct (http_do w req (count_do tr)) as [e|r]; [apply Hrest|].
    case_decide as H200; [|apply Hrest].
    exists [EvDo req]. split_and!; [done| |].
    + apply Forall_cons_2; [by left | apply Forall_nil_2].
    + simpl. split_and!; [done|done|done|].
      change (count_do [EvDo req]) with 1%nat. lia.
Qed.

(** X1: the result of [fetchWithRetries] is either a response with status 200
    and a nil error, obtained without a sleep after it, or a nil response
    after exactly [retryLimit] requests and as many sleeps (the loop sleeps
    after the last failure too); it never sleeps more than
    [retryLimit * retryDelay] (6 s), and sends nothing but [req]. *)
Theorem fetchWithRetries_result_and_delay (w : World) (req : Request) :
  let r := fetchWithRetries w req [] in
  match r.2.1 with
  | Some resp =>
      r.2.2 = None ∧ StatusCode resp = 200 ∧ count_do r.1 = S (count_sleep r.1)
  | None => count_do r.1 = retryLimit ∧ count_sleep r.1 = retryLimit
  end ∧
  dos r.1 = replicate (count_do r.1) req ∧
  slept r.1 = Z.of_nat (count_sleep r.1) * retryDelay ∧
  0 ≤ slept r.1 ≤ 6 * second.
Proof.
  intros r. unfold r, fetchWithRetries.
  destruct (retry_loop_shape w req retryLimit None []) as (l & Hl & Hall & Hres).
  change ([] ++ l) with l in Hl. rewrite Hl.
  assert (dos l = replicate (count_do l) req) as Hdos.
  { clear Hl Hres. induction Hall as [|e l' [-> | ->] _ IH]; [done| |].
    - change (EvDo req :: l') with ([EvDo req] ++ l').
      rewrite dos_app, count_do_app, IH. done.
    - change (EvSleep retryDelay :: l') with ([EvSleep retryDelay] ++ l').
      rewrite dos_app, count_do_app, IH. done. }
  assert (count_sleep l ≤ retryLimit)%nat as Hle.
  { destruct ((retry_loop w req retryLimit None []).2.1);
      [destruct Hres as (_ & _ & ? & ?) | destruct Hres]; lia. }
  split_and!.
  - destruct ((retry_loop w req retryLimit None []).2.1);
      [by destruct Hres as (? & ? & ? & ?) | done].
  - done.
  - by apply (slept_fetch_log req).
  - rewrite (slept_fetch_log req l Hall). unfold retryDelay, second. lia.
  - rewrite (slept_fetch_log req l Hall).
    unfold retryLimit in Hle. unfold retryDelay, second. lia.
Qed.

(** ** The adapters, uniformly *)















(** ** [main] *)


Lemma configureHTTPClient_OsExit (w : World) (proxyURL : string) (st st' : Proc)
    (code : Z) :
  configureHTTPClient w proxyURL st = OsExit code st' →
  code = 1 ∧ proxyURL ≠ "" ∧ uniqueSubs st' = uniqueSubs st ∧
  requests st' = requests st ∧
  ∃ line, stdout st' = stdout st ++ ["Error " +:+ line].
Proof.
  unfold configureHTTPClient. intros H.
  case_decide as Hp; [|done].
  destruct (url_parse w proxyURL) as [err|host].
  - simplify_eq. split_and!; try done. by exists ("in proxy format: " +:+ err).
  - simpl in H. destruct (dial_tcp w host) as [err|]; [|done].
    simplify_eq. split_and!; try done.
    by exists ("connecting to the proxy: " +:+ err).
Qed.

(** [wg.Wait()] always returns: the counter set by [wg.Add(4)] is back at
    zero when the four goroutines have ended. *)
Lemma main_unfold (w : World) (cfg : Config) (sched : list nat) :
  main w cfg sched =
  if decide (domain cfg = "") then Exit 0 (Println usage_line initial)
  else
    match configureHTTPClient w (proxyFlag cfg) initial with
    | OsExit code st => Exit code st
    | Continue st =>
        if decide (concurrencyFlag cfg < 0) then GoPanic
        else if decide (Forall (λ g, g.2 = Returned) (goroutines w cfg)) then
          Exit 0 (printAllSubdomains w
                    (run_goroutines sched (goroutines w cfg).*1 (wg_add 4 st)))
        else GoPanic
    end.
Proof.
  unfold main. case_decide; [done|].
  destruct (configureHTTPClient w (proxyFlag cfg) initial) as [st|code st] eqn:Hc;
    [|done].
  case_decide; [done|]. case_decide; [|done].
  rewrite decide_True; [done|].
  rewrite run_goroutines_wg, goroutines_done.
  destruct (configureHTTPClient_Continue _ _ _ _ Hc) as (_ & Hw & _).
  simpl. rewrite Hw. done.
Qed.

Lemma foldl_Println_frame (l : list string) (st : Proc) :
  wg (foldl (λ s line, Println line s) st l) = wg st ∧
  httpClient (foldl (λ s line, Println line s) st l) = httpClient st ∧
  probes (foldl (λ s line, Println line s) st l) = probes st.
Proof.
  revert st. induction l as [|x l IH]; intros st; [done|].
  cbn [foldl]. by destruct (IH (Println x st)) as (-> & -> & ->).
Qed.

(** X5: [main] never blocks in [wg.Wait()]: the counter raised by
    [wg.Add(4)] is lowered once by each of the four goroutines, and is zero
    whenever the process exits. *)
Theorem main_never_deadlocks (w : World) (cfg : Config) (sched : list nat) :
  match main w cfg sched with
  | Exit _ st => wg st = 0
  | GoPanic => True
  | Deadlock => False
  end.
Proof.
  rewrite main_unfold. case_decide; [done|].
  destruct (configureHTTPClient w (proxyFlag cfg) initial) as [st1|c st1] eqn:Hc.
  - case_decide; [done|]. case_decide; [|done].
    unfold printAllSubdomains. cbn [Println wg].
    destruct (foldl_Println_frame
                (map_range w (uniqueSubs
                   (run_goroutines sched (goroutines w cfg).*1 (wg_add 4 st1))))
                (Println (newline +:+ "=== Unique Subdomains Found ===")
                   (run_goroutines sched (goroutines w cfg).*1 (wg_add 4 st1))))
      as (-> & _ & _).
    cbn [Println wg]. rewrite run_goroutines_wg, goroutines_done.
    destruct (configureHTTPClient_Continue _ _ _ _ Hc) as (_ & Hw & _).
    simpl. rewrite Hw. done.
  - revert Hc. unfold configureHTTPClient. intros Hc.
    repeat case_match; simplify_eq; done.
Qed.





Lemma main_exit_witness_run (w : World) (st : Proc) :
  last (stdout (printAllSubdomains w st)) = Some listing_footer ∧
  listing_header ∈ stdout (printAllSubdomains w st).
Proof.
  destruct (printAllSubdomains_spec w st) as (_ & -> & _). split.
  - rewrite !(assoc_L (++)). apply last_snoc.
  - set_solver.
Qed.

(** X7: the ways [main] exits.  Status 0 with the usage line only, when the
    domain is empty (the proxy is then not looked at); status 1, after one
    line of error, nothing recorded or sent and no listing, when the proxy
    is refused; status 0 with the listing as the last thing printed,
    otherwise.  No other status is possible. *)
Theorem main_exit_statuses
    (w : World) (cfg : Config) (sched : list nat) (code : Z) (st : Proc) :
  main w cfg sched = Exit code st →
  (code = 0 ∧ domain cfg = "" ∧ st = Println usage_line initial) ∨
  (code = 1 ∧ domain cfg ≠ "" ∧ proxyFlag cfg ≠ "" ∧
   requests st = [] ∧ uniqueSubs st = ∅ ∧ ¬ listing_produced (Exit code st)) ∨
  (code = 0 ∧ domain cfg ≠ "" ∧ 0 ≤ concurrencyFlag cfg ∧
   listing_produced (Exit code st) ∧ last (stdout st) = Some listing_footer).
Proof.
  rewrite main_unfold. case_decide as Hd.
  { intros H. simplify_eq. by left. }
  destruct (configureHTTPClient w (proxyFlag cfg) initial) as [st1|c st1] eqn:Hc.
  - case_decide as Hn; [done|]. case_decide as Hall; [|done].
    intros Hm. simplify_eq. right. right.
    destruct (main_exit_witness_run w
                (run_goroutines sched (goroutines w cfg).*1 (wg_add 4 st1))).
    split_and!; [done|done|lia|done|done].
  - intros H. simplify_eq. right. left.
    destruct (configureHTTPClient_OsExit _ _ _ _ _ Hc)
      as (-> & Hp & Hu & Hr & line & Ho).
    split_and!; try done. simpl. rewrite Ho. simpl.
    intros Hin. apply list_elem_of_singleton in Hin. discriminate.
Qed.

Lemma main_exit_statuses_witness :
  let cfg := through_proxy "" "http://127.0.0.1:8080" in
  main dead_proxy cfg [0]%nat = Exit 0 (Println usage_line initial) ∧
  probes (Println usage_line initial) = [].
Proof.
  intros cfg.
  destruct (main_exit_statuses dead_proxy cfg [0]%nat 0 (Println usage_line initial))
    as [(_ & _ & _) | [(H & _) | (_ & H & _)]].
  - reflexivity.
  - split; reflexivity.
  - discriminate H.
  - exfalso. apply H. reflexivity.
Defined.









(** ** The Aggregator *)

Lemma size_accepted (l : list string) : (size (accepted l) ≤ length l)%nat.
Proof.
  induction l as [|s l IH]; [by rewrite accepted_nil, size_empty|].
  rewrite accepted_cons, size_union_alt, length_cons.
  assert (size (accepted l ∖ (if containsWildcard s then ∅ else {[s]}))
          ≤ size (accepted l))%nat by (apply subseteq_size; set_solver).
  destruct (containsWildcard s); rewrite ?size_empty, ?size_singleton; lia.
Qed.

(** X10: during a run the set only grows: nothing is ever removed, what is
    added was recorded by a goroutine and is no wildcard, and the set grows
    by at most one string per call of [addSubdomain]. *)
Theorem uniqueSubs_only_grows
    (sched : list nat) (gs : list (list event)) (st : Proc) (s : string) :
  uniqueSubs st ⊆ uniqueSubs (run_goroutines sched gs st) ∧
  (s ∈ uniqueSubs (run_goroutines sched gs st) ↔
     s ∈ uniqueSubs st ∨ (s ∈ adds (concat gs) ∧ containsWildcard s = false)) ∧
  (size (uniqueSubs (run_goroutines sched gs st))
     ≤ size (uniqueSubs st) + length (adds (concat gs)))%nat ∧
  uniqueSubs st ⊆ uniqueSubs (addSubdomain s st) ∧
  (size (uniqueSubs (addSubdomain s st)) ≤ S (size (uniqueSubs st)))%nat.
Proof.
  rewrite run_goroutines_subs, addSubdomain_subs. split_and!.
  - set_solver.
  - rewrite elem_of_union, elem_of_accepted. tauto.
  - rewrite size_union_alt.
    assert (size (accepted (adds (concat gs)) ∖ uniqueSubs st)
            ≤ size (accepted (adds (concat gs))))%nat
      by (apply subseteq_size; set_solver).
    pose proof (size_accepted (adds (concat gs))). lia.
  - set_solver.
  - rewrite size_union_alt.
    assert (size (uniqueSubs st ∖ accepted [s]) ≤ size (uniqueSubs st))%nat
      by (apply subseteq_size; set_solver).
    pose proof (size_accepted [s]) as Hs. rewrite length_cons in Hs.
    simpl length in Hs. lia.
Qed.

(** X11: recording two strings in either order leaves the same set; recording
    a string twice is recording it once, for the whole process state when it
    is no wildcard, while a wildcard is noticed on standard output at every
    submission. *)
Theorem addSubdomain_commutes_and_is_idempotent (a b : string) (st : Proc) :
  uniqueSubs (addSubdomain a (addSubdomain b st))
    = uniqueSubs (addSubdomain b (addSubdomain a st)) ∧
  uniqueSubs (addSubdomain a (addSubdomain a st)) = uniqueSubs (addSubdomain a st) ∧
  if containsWildcard a
  then stdout (addSubdomain a (addSubdomain a st))
         = stdout st ++ [wildcard_notice a; wildcard_notice a]
  else addSubdomain a (addSubdomain a st) = addSubdomain a st.
Proof.
  split_and!.
  - rewrite !addSubdomain_subs. set_solver.
  - rewrite !addSubdomain_subs. set_solver.
  - destruct (containsWildcard a) eqn:Hw.
    + rewrite !addSubdomain_wildcard by done. rewrite !stdout_Println.
      by rewrite <- (assoc_L (++)).
    + apply addSubdomain_seen; [done|]. rewrite addSubdomain_subs.
      apply elem_of_union_l, elem_of_accepted. split; [apply list_elem_of_here|done].
Qed.

(** X12: the lines "Subdomain found:" announce each string of the final set
    exactly once: as many lines as the set has elements, no string twice,
    and no string that is not in the set. *)
Theorem each_accepted_subdomain_is_announced_once (l : list string) :
  let st := record_all l initial in
  NoDup (omap found (stdout st)) ∧
  (∀ s, s ∈ omap found (stdout st) ↔ s ∈ uniqueSubs st) ∧
  length (omap found (stdout st)) = size (uniqueSubs st).
Proof.
  intros st. unfold st. rewrite record_all_found, record_all_subs. simpl.
  rewrite (left_id_L ∅ (∪)).
  destruct (first_seen_spec ∅ l) as [Hnd Hx].
  assert (first_seen ∅ l ≡ₚ elements (accepted l)) as Hp.
  { apply NoDup_Permutation; [done|apply NoDup_elements|].
    intros x. rewrite elem_of_elements, Hx. set_solver. }
  split_and!; [done| |].
  - intros s. rewrite Hx. set_solver.
  - by rewrite Hp.
Qed.

Lemma size_union_list_disjoint (sets : list (gset string)) :
  (∀ i j A B, i ≠ j → sets !! i = Some A → sets !! j = Some B → A ## B) →
  size (⋃ sets) = sum_list (size <$> sets).
Proof.
  induction sets as [|A sets IH]; intros Hdis.
  - rewrite union_list_nil. apply size_empty.
  - rewrite union_list_cons, fmap_cons. cbn [sum_list sum_list_with].
    rewrite size_union.
    + rewrite IH; [done|]. intros i j B C Hij Hi Hj.
      apply (Hdis (S i) (S j)); [lia|done|done].
    + intros x HA HB. apply elem_of_union_list in HB as (B & HB & Hx).
      apply list_elem_of_lookup in HB as [j Hj].
      by apply (Hdis 0%nat (S j) A B ltac:(lia) eq_refl Hj x).
Qed.

Lemma accepted_concat (gs : list (list event)) :
  accepted (adds (concat gs)) = ⋃ (contributions gs).
Proof.
  induction gs as [|g gs IH]; [done|].
  simpl. by rewrite adds_app, accepted_app, IH.
Qed.

(** X13: the final set is the union of what the goroutines contribute; when
    the contributions are pairwise disjoint its size is the sum of their
    sizes. *)
Theorem disjoint_contributions_add_up (sched : list nat) (gs : list (list event)) :
  (∀ i j A B, i ≠ j → contributions gs !! i = Some A →
              contributions gs !! j = Some B → A ## B) →
  uniqueSubs (run_goroutines sched gs initial) = ⋃ (contributions gs) ∧
  size (uniqueSubs (run_goroutines sched gs initial))
    = sum_list (size <$> contributions gs).
Proof.
  intros Hdis. rewrite run_goroutines_subs, accepted_concat. simpl.
  rewrite (left_id_L ∅ (∪)). split; [done|].
  by apply size_union_list_disjoint.
Qed.

Lemma disjoint_contributions_witness :
  let gs := [ [EvAdd "a.example.com"; EvAdd "a.example.com"];
              [EvAdd "b.example.com"; EvAdd "*.example.com"];
              [EvDone];
              [EvAdd "c.example.com"; EvAdd "d.example.com"] ] in
  uniqueSubs (run_goroutines [3; 0; 1; 3]%nat gs initial) = ⋃ (contributions gs) ∧
  size (uniqueSubs (run_goroutines [3; 0; 1; 3]%nat gs initial))
    = sum_list (size <$> contributions gs).
Proof.
  intros gs. apply (disjoint_contributions_add_up [3; 0; 1; 3]%nat gs).
  intros i j A B Hij Hi Hj. unfold contributions in Hi, Hj.
  rewrite list_lookup_fmap in Hi, Hj.
  destruct (gs !! i) as [gi|] eqn:Hgi; [|done].
  destruct (gs !! j) as [gj|] eqn:Hgj; [|done].
  injection Hi as <-. injection Hj as <-.
  intros x Hx1 Hx2.
  apply elem_of_accepted in Hx1 as [Hx1 _]. apply elem_of_accepted in Hx2 as [Hx2 _].
  destruct i as [|[|[|[|i]]]], j as [|[|[|[|j]]]]; try done;
    injection Hgi as <-; injection Hgj as <-;
    cbv [adds omap list_omap] in Hx1, Hx2; set_solver.
Defined.

(** ** Well-formed answers *)

Lemma decode_named_records (elems : list json) (names : list string) :
  Forall2 (λ v name, ∃ fields,
             v = JObj fields ∧ map_get "name_value" fields = Some (JStr name))
    elems names →
  ∃ results, mapM decode_record elems = Some results ∧
    omap (λ entry, match map_get "name_value" entry with
                   | Some (JStr subdomain) => Some subdomain
                   | _ => None
                   end) results = names.
Proof.
  induction 1 as [|v name elems names (fields & -> & Hg) _ (results & Hm & Ho)].
  - by exists [].
  - exists (fields :: results). split.
    + cbn [mapM decode_record]. rewrite Hm. done.
    + cbn [omap list_omap]. rewrite Hg. f_equal. exact Ho.
Qed.

(** X14: a well-formed answer is recorded whole and as it is: crt.sh gives the
    "name_value" strings of its records, VirusTotal the strings of its "data"
    array, in the order of the answer, repetitions included, without any
    check or change of the strings. *)
Theorem well_formed_answers_are_recorded_as_they_are
    (elems : list json) (names : list string)
    (fields : list (string * json)) (data : list string) :
  Forall2 (λ v name, ∃ record,
             v = JObj record ∧ map_get "name_value" record = Some (JStr name))
    elems names →
  map_get "data" fields = Some (JArr (JStr <$> data)) →
  crtsh_findings (Some (JArr elems)) = names ∧
  virustotal_findings (Some (JObj fields)) = data.
Proof.
  intros Hrecords Hdata. split.
  - destruct (decode_named_records elems names Hrecords) as (results & Hm & Ho).
    unfold crtsh_findings, decode_records. by rewrite Hm.
  - unfold virustotal_findings, decode_object. cbn [decode_record]. rewrite Hdata.
    clear Hdata. induction data as [|s data IH]; [done|].
    rewrite fmap_cons. cbn [omap list_omap]. f_equal. exact IH.
Qed.

Lemma well_formed_answers_witness :
  crtsh_findings
    (Some (JArr [ JObj [("id", JNum "1"); ("name_value", JStr "a.example.com")];
                  JObj [("name_value", JStr "")];
                  JObj [("name_value", JStr "a.example.com")] ]))
    = ["a.example.com"; ""; "a.example.com"] ∧
  virustotal_findings
    (Some (JObj [("data", JArr [JStr "x.example.com"; JStr "*.example.com"])]))
    = ["x.example.com"; "*.example.com"].
Proof.
  apply (well_formed_answers_are_recorded_as_they_are
           [ JObj [("id", JNum "1"); ("name_value", JStr "a.example.com")];
             JObj [("name_value", JStr "")];
             JObj [("name_value", JStr "a.example.com")] ]
           ["a.example.com"; ""; "a.example.com"]
           [("data", JArr [JStr "x.example.com"; JStr "*.example.com"])]
           ["x.example.com"; "*.example.com"]).
  - repeat (apply Forall2_cons_2; [eexists; split; reflexivity|]).
    apply Forall2_nil_2.
  - reflexivity.
Defined.

Lemma containsWildcard_append (label rest : string) :
  containsWildcard (label +:+ "." +:+ rest) = containsWildcard label.
Proof.
  destruct label as [|c label]; [done|].
  change (String c label +:+ "." +:+ rest) with (String c (label +:+ "." +:+ rest)).
  by rewrite !containsWildcard_first.
Qed.

(** X15: for SecurityTrails and Shodan the wildcard test falls on the label:
    [label.domain] is dropped exactly when the label starts with [*],
    whatever the domain; so the set gets [label.domain] for the labels that
    do not start with [*], and nothing else. *)
Theorem labels_are_filtered_by_their_first_character
    (d : string) (fields : list (string * json)) (labels : list string) :
  map_get "subdomains" fields = Some (JArr (JStr <$> labels)) →
  (∀ label, containsWildcard (Sprintf_s_dot_s (JStr label) d)
            = containsWildcard label) ∧
  accepted (labels_findings d (Some (JObj fields))) =
    list_to_set ((λ label, label +:+ "." +:+ d)
                   <$> filter (λ label, containsWildcard label = false) labels).
Proof.
  intros H. split; [intros label; apply containsWildcard_append|].
  rewrite (labels_findings_strings d fields labels H). clear H.
  induction labels as [|label labels IH]; [done|].
  rewrite fmap_cons, accepted_cons, containsWildcard_append, filter_cons, IH.
  destruct (containsWildcard label) eqn:Hw.
  - rewrite decide_False by done. set_solver.
  - rewrite decide_True by done. rewrite fmap_cons. set_solver.
Qed.

Lemma labels_are_filtered_witness :
  accepted (labels_findings "example.com"
              (Some (JObj [("subdomains", JArr [JStr "www"; JStr "*"; JStr ""; JStr "a*"])])))
  = list_to_set ["www.example.com"; ".example.com"; "a*.example.com"].
Proof.
  apply (labels_are_filtered_by_their_first_character "example.com"
           [("subdomains", JArr [JStr "www"; JStr "*"; JStr ""; JStr "a*"])]
           ["www"; "*"; ""; "a*"]).
  reflexivity.
Defined.

(** ** [configureHTTPClient] and [printAllSubdomains], once more *)

(** X16: [configureHTTPClient] either goes on, with a client whose timeout is
    5 s and whose proxy is the URL given (none for the empty URL), having
    probed the proxy host once (never without a URL) and touched neither the
    set, the wait group nor the network log; or it exits, always with
    status 1 and only for a URL that is not empty, leaving the client
    unset. *)
Theorem configureHTTPClient_outcomes (w : World) (proxyURL : string) (st : Proc) :
  match configureHTTPClient w proxyURL st with
  | Continue st' =>
      httpClient st' =
        Some {| Timeout := 5 * second;
                Proxy := if decide (proxyURL = "") then None else Some proxyURL |} ∧
      probes st' =
        probes st ++ (if decide (proxyURL = "") then []
                      else match url_parse w proxyURL with
                           | inr host => [host]
                           | inl _ => []
                           end) ∧
      stdout st' =
        stdout st ++ (if decide (proxyURL = "") then []
                      else ["Proxy configured: " +:+ proxyURL]) ∧
      uniqueSubs st' = uniqueSubs st ∧ wg st' = wg st ∧ requests st' = requests st
  | OsExit code st' =>
      code = 1 ∧ proxyURL ≠ "" ∧ httpClient st' = httpClient st ∧
      (length (probes st') ≤ S (length (probes st)))%nat ∧
      length (stdout st') = S (length (stdout st)) ∧
      uniqueSubs st' = uniqueSubs st ∧ wg st' = wg st ∧ requests st' = requests st
  end.
Proof.
  unfold configureHTTPClient.
  destruct (decide (proxyURL = "")) as [->|Hp].
  - simpl. by rewrite !app_nil_r.
  - rewrite decide_True by done.
    destruct (url_parse w proxyURL) as [err|host].
    + simpl. rewrite length_app. simpl. split_and!; try done; lia.
    + cbn zeta. destruct (dial_tcp w host) as [err|].
      * simpl. rewrite !length_app. simpl. split_and!; try done; lia.
      * simpl. done.
Qed.

(** X17: [printAllSubdomains] prints the header, every string of the set
    exactly once and nothing else, then the footer, and changes nothing but
    standard output; an empty set gives the header and the footer alone. *)
Theorem printAllSubdomains_lists_the_set_once (w : World) (st : Proc) :
  ∃ listed,
    stdout (printAllSubdomains w st) =
      stdout st ++ [listing_header] ++ listed ++ [listing_footer] ∧
    NoDup listed ∧
    (∀ s, s ∈ listed ↔ s ∈ uniqueSubs st) ∧
    length listed = size (uniqueSubs st) ∧
    uniqueSubs (printAllSubdomains w st) = uniqueSubs st ∧
    requests (printAllSubdomains w st) = requests st ∧
    wg (printAllSubdomains w st) = wg st ∧
    httpClient (printAllSubdomains w st) = httpClient st ∧
    probes (printAllSubdomains w st) = probes st.
Proof.
  exists (map_range w (uniqueSubs st)).
  destruct (printAllSubdomains_spec w st) as (Hu & Ho & Hr).
  pose proof (map_range_perm w (uniqueSubs st)) as Hp.
  split_and!; [done| | | |done|done| | |].
  - rewrite Hp. apply NoDup_elements.
  - intros s. rewrite Hp. apply elem_of_elements.
  - by rewrite Hp.
  - unfold printAllSubdomains. cbn [Println wg].
    by destruct (foldl_Println_frame (map_range w (uniqueSubs st))
                   (Println (newline +:+ "=== Unique Subdomains Found ===") st))
      as (-> & _ & _).
  - unfold printAllSubdomains. cbn [Println httpClient].
    by destruct (foldl_Println_frame (map_range w (uniqueSubs st))
                   (Println (newline +:+ "=== Unique Subdomains Found ===") st))
      as (_ & -> & _).
  - unfold printAllSubdomains. cbn [Println probes].
    by destruct (foldl_Println_frame (map_range w (uniqueSubs st))
                   (Println (newline +:+ "=== Unique Subdomains Found ===") st))
      as (_ & _ & ->).
Qed.
